(** * magneticod: the Mainline DHT transport (transports/mainline.py)

    A shallow embedding of [magneticod.transports.mainline.Transport] and of
    the parts of asyncio it leans on ([asyncio.Event], [asyncio.wait],
    [collections.deque]), followed by the properties of the send queue, of the
    drain coroutine [_send_messages] and of the socket callbacks.

    Conventions.
    - A reading of [time.monotonic()] is a rational number (every float is
      one); [int(...)] is truncation towards zero.  Rounding inside the float
      subtraction of line 111 is not modelled.
    - [bytes] are lists of [Byte.byte]; the decoded messages are the Python
      objects a bencoding codec produces.
    - [codec.encode], [codec.decode] and an overriding [on_message] are not
      part of the file: they are the Variables of [Section Mainline]. *)

From Stdlib Require Import List ZArith QArith Qround Lqa Lia Bool Permutation.
From Stdlib.Strings Require Import String Byte.
Import ListNotations.

Local Open Scope Z_scope.

(* ------------------------------------------------------------------ *)
(** ** Python values *)

Definition bytes := list byte.

(** What [codec.decode] can hand back, and what [codec.Message] ranges over. *)
#[warnings="-register-all"] Inductive pyobject : Type :=
| PyInt (z : Z)
| PyBytes (b : bytes)
| PyList (l : list pyobject)
| PyDict (d : list (bytes * pyobject)).

(** [isinstance(message, dict)] *)
Definition isinstance_dict (o : pyobject) : bool :=
  match o with
  | PyDict _ => true
  | _ => false
  end.

(** The exceptions that occur in the module. *)
Inductive pyexc : Type :=
| IndexError
| NotImplementedError
| OSError (errno : Z)
| SystemExit (code : Z).

(** How a call ends: it returns [None], or an exception leaves it. *)
Inductive outcome : Type :=
| Returns
| Raises (e : pyexc).

(** [codec.DecodeError], the one exception [datagram_received] catches. *)
Inductive DecodeError : Type := DecodeError_raised.

(** [Address = typing.Tuple[str, int]] *)
Definition Address : Type := (string * Z)%type.

Definition Message : Type := pyobject.

(** [MessageQueueEntry = NamedTuple(queued_on: int, message, address)] *)
Record MessageQueueEntry : Type := mkEntry {
  queued_on : Z;
  message : Message;
  address : Address
}.

(** [int(x)] for a float [x]: truncation towards zero. *)
Definition int_of_float (x : Q) : Z := Z.quot (Qnum x) (Zpos (Qden x)).

(* ------------------------------------------------------------------ *)
(** ** collections.deque

    The deque is the list of its items from the left end to the right end. *)

Module Deque.

Definition t (A : Type) : Type := list A.

Definition empty {A : Type} : t A := [].

(** [d.append(x)]: add [x] at the right end. *)
Definition append {A : Type} (d : t A) (x : A) : t A := d ++ [x].

(** [d.pop()]: remove and return the item at the right end; [None] stands
    for the [IndexError] of an empty deque. *)
Fixpoint pop {A : Type} (d : t A) : option (A * t A) :=
  match d with
  | [] => None
  | x :: d' =>
      match pop d' with
      | None => Some (x, [])
      | Some (y, r) => Some (y, x :: r)
      end
  end.

(** [d.popleft()], which the transport does not call; kept to state what a
    first-in first-out discipline would take. *)
Definition popleft {A : Type} (d : t A) : option (A * t A) :=
  match d with
  | [] => None
  | x :: d' => Some (x, d')
  end.

End Deque.

(* ------------------------------------------------------------------ *)
(** ** asyncio.Event and asyncio.wait

    An [asyncio.Event] is its flag.  [Event.wait()] is a coroutine:

    - run for the first time, it returns at once when the flag is set, and
      otherwise parks itself on a future in the waiter list of the event;
    - [Event.set()] on a cleared flag sets it and resolves the futures of the
      parked waiters, which then return; [set()] on a set flag does nothing;
    - [Event.clear()] only clears the flag: a waiter that has returned, or
      whose future is resolved, stays so.

    [asyncio.wait(aws)] wraps each awaitable in a task of its own and, with
    its default [return_when=ALL_COMPLETED], returns when every one of them
    is done. *)

Inductive wait_task : Type :=
| Created    (* wrapped in a task, first step not yet run *)
| Parked     (* found the flag cleared, waits for [set()] *)
| Finished.  (* returned [True] *)

Module Event.

(** First step of [Event.wait()] under flag [value]. *)
Definition wait_first_step (value : bool) : wait_task :=
  if value then Finished else Parked.

(** Effect of [Event.set()] on the waiter, the flag being [value] before. *)
Definition set_wakes (value : bool) (w : wait_task) : wait_task :=
  if value then w
  else match w with
       | Parked => Finished
       | _ => w
       end.

End Event.

(** [return_when] of [asyncio.wait]. *)
Inductive return_when : Type := FIRST_COMPLETED | ALL_COMPLETED.

Definition is_finished (w : wait_task) : bool :=
  match w with
  | Finished => true
  | _ => false
  end.

(** Whether [asyncio.wait(aws, return_when=rw)] has returned. *)
Definition asyncio_wait_done (rw : return_when) (aws : list wait_task) : bool :=
  match rw with
  | ALL_COMPLETED => forallb is_finished aws
  | FIRST_COMPLETED => existsb is_finished aws
  end.

(* ------------------------------------------------------------------ *)
(** ** The transport object and its surroundings *)

(** [asyncio.DatagramTransport()] built in [__init__] is the abstract base
    class, whose [sendto] raises [NotImplementedError]; [connection_made]
    replaces it by the transport of a bound socket. *)
Inductive DatagramTransport : Type :=
| BaseDatagramTransport
| SocketTransport (fd : Z).

(** Where the coroutine [_send_messages] stands. *)
Inductive coroutine : Type :=
| AwaitingWait (write_allowed_wait queue_nonempty_wait : wait_task)
              (* suspended at line 104 *)
| CoroutineReturned                   (* left through line 112 *)
| CoroutineRaised (e : pyexc).        (* an exception left line 114 *)

Inductive level : Type := DEBUG | INFO | WARNING | ERROR | CRITICAL.

Definition levelno (l : level) : Z :=
  match l with
  | DEBUG => 10
  | INFO => 20
  | WARNING => 30
  | ERROR => 40
  | CRITICAL => 50
  end.

Record LogRecord : Type := mkLog {
  log_level : level;
  log_msg : string;
  log_exc_info : option pyexc
}.

(** The attributes of [self], then what the transport does to the outside:
    the datagrams handed to [sendto] (oldest first), the log, and the exit
    status once [sys.exit] ran. *)
Record Transport : Type := mkTransport {
  _datagram_transport : DatagramTransport;
  _write_allowed : bool;
  _queue_nonempty : bool;
  _message_queue : Deque.t MessageQueueEntry;
  _messenger_task : coroutine;
  sent : list (bytes * Address);
  logged : list LogRecord;
  exited : option Z
}.

Definition with_datagram_transport (t : DatagramTransport) (self : Transport) :=
  mkTransport t (_write_allowed self) (_queue_nonempty self)
    (_message_queue self) (_messenger_task self) (sent self) (logged self)
    (exited self).

Definition with_message_queue (q : Deque.t MessageQueueEntry) (self : Transport) :=
  mkTransport (_datagram_transport self) (_write_allowed self)
    (_queue_nonempty self) q (_messenger_task self) (sent self) (logged self)
    (exited self).

Definition with_messenger_task (c : coroutine) (self : Transport) :=
  mkTransport (_datagram_transport self) (_write_allowed self)
    (_queue_nonempty self) (_message_queue self) c (sent self) (logged self)
    (exited self).

Definition with_sent (s : list (bytes * Address)) (self : Transport) :=
  mkTransport (_datagram_transport self) (_write_allowed self)
    (_queue_nonempty self) (_message_queue self) (_messenger_task self) s
    (logged self) (exited self).

Definition with_logged (l : list LogRecord) (self : Transport) :=
  mkTransport (_datagram_transport self) (_write_allowed self)
    (_queue_nonempty self) (_message_queue self) (_messenger_task self)
    (sent self) l (exited self).

Definition with_exited (e : option Z) (self : Transport) :=
  mkTransport (_datagram_transport self) (_write_allowed self)
    (_queue_nonempty self) (_message_queue self) (_messenger_task self)
    (sent self) (logged self) e.

(** [self._write_allowed.set()] *)
Definition write_allowed_set (self : Transport) : Transport :=
  mkTransport (_datagram_transport self) true (_queue_nonempty self)
    (_message_queue self)
    (match _messenger_task self with
     | AwaitingWait w q =>
         AwaitingWait (Event.set_wakes (_write_allowed self) w) q
     | c => c
     end)
    (sent self) (logged self) (exited self).

(** [self._write_allowed.clear()] *)
Definition write_allowed_clear (self : Transport) : Transport :=
  mkTransport (_datagram_transport self) false (_queue_nonempty self)
    (_message_queue self) (_messenger_task self) (sent self) (logged self)
    (exited self).

(** [self._queue_nonempty.set()] *)
Definition queue_nonempty_set (self : Transport) : Transport :=
  mkTransport (_datagram_transport self) (_write_allowed self) true
    (_message_queue self)
    (match _messenger_task self with
     | AwaitingWait w q =>
         AwaitingWait w (Event.set_wakes (_queue_nonempty self) q)
     | c => c
     end)
    (sent self) (logged self) (exited self).

(** [self._queue_nonempty.clear()] *)
Definition queue_nonempty_clear (self : Transport) : Transport :=
  mkTransport (_datagram_transport self) (_write_allowed self) false
    (_message_queue self) (_messenger_task self) (sent self) (logged self)
    (exited self).

(** [Transport.__init__]: no socket yet, both events cleared, empty deque,
    and the messenger task, which runs up to its first [await]. *)
Definition init : Transport :=
  mkTransport BaseDatagramTransport false false Deque.empty
    (AwaitingWait Created Created) [] [] None.

(** The staleness bound of line 111. *)
Definition STALE_AFTER : Q := 60%Q.

(** [time.monotonic() - queued_on] *)
Definition age (now : Q) (e : MessageQueueEntry) : Q :=
  (now - inject_Z (queued_on e))%Q.

(** [time.monotonic() - queued_on > 60] *)
Definition stale (now : Q) (e : MessageQueueEntry) : bool :=
  negb (Qle_bool (age now e) STALE_AFTER).


(* ------------------------------------------------------------------ *)
(** ** The methods of [Transport] *)

(** What [datagram_received] calls on its way, in order. *)
Inductive call : Type :=
| Called_decode (data : bytes)
| Called_on_message (message : Message) (address : Address).

Definition is_on_message (c : call) : bool :=
  match c with
  | Called_on_message _ _ => true
  | Called_decode _ => false
  end.

(** [on_message] as the class defines it: [pass]. *)
Definition on_message_pass (message : Message) (address : Address) : outcome :=
  Returns.

Section Mainline.

(** [codec.encode]; the transport takes it to succeed on every message. *)
Variable encode : Message -> bytes.

(** [codec.decode]: a decoded object, or [codec.DecodeError] raised. *)
Variable decode : bytes -> DecodeError + pyobject.

(** [self.on_message], which a deployment overrides. *)
Variable on_message : Message -> Address -> outcome.

(** Lines 53-56; [now] is the reading of [time.monotonic()] on line 54. *)
Definition send_message (now : Q) (message : Message) (address : Address)
    (self : Transport) : Transport :=
  let self :=
    with_message_queue
      (Deque.append (_message_queue self)
         (mkEntry (int_of_float now) message address)) self in
  if negb (_queue_nonempty self) then queue_nonempty_set self else self.

(** Lines 64-66. *)
Definition connection_made (transport : DatagramTransport) (self : Transport)
    : Transport :=
  write_allowed_set (with_datagram_transport transport self).

(** Lines 68-82.  No attribute of [self] is read or written: the result is
    the list of calls made and how the method ends. *)
Definition datagram_received (data : bytes) (address : Address)
    : list call * outcome :=
  if snd address =? 0 then ([], Returns)
  else
    match decode data with
    | inl DecodeError_raised => ([Called_decode data], Returns)
    | inr message =>
        if negb (isinstance_dict message) then ([Called_decode data], Returns)
        else ([Called_decode data; Called_on_message message address],
              on_message message address)
    end.

(** Lines 84-85. *)
Definition error_received (exc : pyexc) (self : Transport) : Transport :=
  with_logged
    (logged self ++ [mkLog DEBUG "Mainline DHT received error!" (Some exc)])
    self.

(** Lines 87-88. *)
Definition pause_writing (self : Transport) : Transport :=
  write_allowed_clear self.

(** Lines 90-91. *)
Definition resume_writing (self : Transport) : Transport :=
  write_allowed_set self.

(** [sys.exit(status)] *)
Definition sys_exit (status : Z) (self : Transport) : Transport :=
  with_exited (Some status) self.

(** Lines 93-100.  [exc] is [None] or an exception object, which is truthy;
    [logging.fatal] logs at level CRITICAL. *)
Definition connection_lost (exc : option pyexc) (self : Transport)
    : Transport :=
  let self :=
    match exc with
    | Some e =>
        with_logged
          (logged self ++
           [mkLog CRITICAL
              "Mainline DHT lost connection! (See the following log entry for the exception.)"
              (Some e)]) self
    | None =>
        with_logged
          (logged self ++ [mkLog CRITICAL "Mainline DHT lost connection!" None])
          self
    end in
  sys_exit 1 self.

(** [self._datagram_transport.sendto(data, address)] *)
Definition sendto (data : bytes) (addr : Address) (self : Transport)
    : Transport + pyexc :=
  match _datagram_transport self with
  | BaseDatagramTransport => inr NotImplementedError
  | SocketTransport _ => inl (with_sent (sent self ++ [(data, addr)]) self)
  end.

(** Lines 105-114 and back to line 104: what [_send_messages] does between
    the return of one [asyncio.wait] and the next suspension (or its end).
    [now] is the reading of [time.monotonic()] on line 111. *)
Definition _send_messages (now : Q) (self : Transport) : Transport :=
  match Deque.pop (_message_queue self) with
  | None =>
      with_messenger_task (AwaitingWait Created Created)
        (queue_nonempty_clear self)
  | Some (entry, rest) =>
      let self := with_message_queue rest self in
      if stale now entry then with_messenger_task CoroutineReturned self
      else
        match sendto (encode (message entry)) (address entry) self with
        | inl self' => with_messenger_task (AwaitingWait Created Created) self'
        | inr exc => with_messenger_task (CoroutineRaised exc) self
        end
  end.

(** Line 104: has [asyncio.wait([...])] returned? *)
Definition wait_returned (self : Transport) : bool :=
  match _messenger_task self with
  | AwaitingWait w q => asyncio_wait_done ALL_COMPLETED [w; q]
  | _ => false
  end.

(** What the event loop can run next: a callback of the protocol, a call of
    [send_message], the first step of one of the two [Event.wait()] tasks of
    line 104, or the resumption of [_send_messages]. *)
Inductive action : Type :=
| Call_send_message (now : Q) (message : Message) (address : Address)
| Call_connection_made (transport : DatagramTransport)
| Call_datagram_received (data : bytes) (address : Address)
| Call_error_received (exc : pyexc)
| Call_pause_writing
| Call_resume_writing
| Call_connection_lost (exc : option pyexc)
| Run_write_allowed_wait
| Run_queue_nonempty_wait
| Resume_send_messages (now : Q).

(** One turn of the event loop; [None] when the action cannot run in [self].
    [datagram_received] itself touches no attribute of [self]; what an
    overriding [on_message] does to the transport (a reply through
    [send_message], say) is a turn of its own in the schedule. *)
Definition step (a : action) (self : Transport) : option Transport :=
  match exited self with
  | Some _ => None
  | None =>
      match a with
      | Call_send_message now m addr => Some (send_message now m addr self)
      | Call_connection_made t => Some (connection_made t self)
      | Call_datagram_received _ _ => Some self
      | Call_error_received exc => Some (error_received exc self)
      | Call_pause_writing => Some (pause_writing self)
      | Call_resume_writing => Some (resume_writing self)
      | Call_connection_lost exc => Some (connection_lost exc self)
      | Run_write_allowed_wait =>
          match _messenger_task self with
          | AwaitingWait Created q =>
              Some (with_messenger_task
                      (AwaitingWait
                         (Event.wait_first_step (_write_allowed self)) q) self)
          | _ => None
          end
      | Run_queue_nonempty_wait =>
          match _messenger_task self with
          | AwaitingWait w Created =>
              Some (with_messenger_task
                      (AwaitingWait w
                         (Event.wait_first_step (_queue_nonempty self))) self)
          | _ => None
          end
      | Resume_send_messages now =>
          if wait_returned self then Some (_send_messages now self) else None
      end
  end.

(** A schedule, run from [self]. *)
Fixpoint run (schedule : list action) (self : Transport) : option Transport :=
  match schedule with
  | [] => Some self
  | a :: rest =>
      match step a self with
      | Some self' => run rest self'
      | None => None
      end
  end.

(** The states a schedule goes through, [self] first. *)
Fixpoint visited (schedule : list action) (self : Transport)
    : list Transport :=
  match schedule with
  | [] => [self]
  | a :: rest =>
      self :: match step a self with
              | Some self' => visited rest self'
              | None => []
              end
  end.

(** Turns of the event loop that resume [_send_messages] itself. *)
Definition is_resume (a : action) : bool :=
  match a with
  | Resume_send_messages _ => true
  | _ => false
  end.

(** One whole iteration of the loop of [_send_messages]. *)
Definition iteration (now : Q) : list action :=
  [Run_write_allowed_wait; Run_queue_nonempty_wait; Resume_send_messages now].

End Mainline.

(** The invariant of the queue-activity event: entries in the deque imply
    that [_queue_nonempty] is set. *)
Definition queue_signalled (self : Transport) : Prop :=
  _message_queue self <> [] -> _queue_nonempty self = true.

(** The datagram [sendto] receives for a queue entry. *)
Definition datagram_of (encode : Message -> bytes) (e : MessageQueueEntry)
    : bytes * Address :=
  (encode (message e), address e).

(* ------------------------------------------------------------------ *)
(** ** Vocabulary for schedules *)


(** The callbacks that call [self._write_allowed.set()]. *)
Definition sets_write_allowed (a : action) : bool :=
  match a with
  | Call_connection_made _ => true
  | Call_resume_writing => true
  | _ => false
  end.


(** The entries that the calls of [send_message] in a schedule create, in
    the order of the calls. *)
Fixpoint enqueued (schedule : list action) : list MessageQueueEntry :=
  match schedule with
  | [] => []
  | Call_send_message now m a :: rest =>
      mkEntry (int_of_float now) m a :: enqueued rest
  | _ :: rest => enqueued rest
  end.

(** [1] once [_send_messages] is over, by [return] or by an exception. *)
Definition ended (c : coroutine) : nat :=
  match c with
  | AwaitingWait _ _ => 0%nat
  | _ => 1%nat
  end.

(** A parked wait means a cleared flag: no [set()] has been missed. *)
Definition no_lost_wakeup (self : Transport) : Prop :=
  match _messenger_task self with
  | AwaitingWait w q =>
      (w = Parked -> _write_allowed self = false)
      /\ (q = Parked -> _queue_nonempty self = false)
  | _ => True
  end.

(** The turns still needed before [_send_messages] can be resumed at
    [now]: the first steps of the waits not yet started, then the
    resumption. *)
Definition pending_turns (now : Q) (self : Transport) : list action :=
  match _messenger_task self with
  | AwaitingWait w q =>
      (match w with Created => [Run_write_allowed_wait] | _ => [] end)
      ++ (match q with Created => [Run_queue_nonempty_wait] | _ => [] end)
      ++ [Resume_send_messages now]
  | _ => []
  end.

(** The time stamps of the deque never decrease from left to right. *)
Fixpoint stamps_sorted (d : Deque.t MessageQueueEntry) : Prop :=
  match d with
  | [] => True
  | e :: d' =>
      (forall e', In e' d' -> queued_on e <= queued_on e') /\ stamps_sorted d'
  end.

(** The readings [send_message] takes over a schedule never decrease,
    starting from [last]. *)
Fixpoint clock_nondecreasing (last : Q) (schedule : list action) : Prop :=
  match schedule with
  | [] => True
  | Call_send_message now _ _ :: rest =>
      (last <= now)%Q /\ clock_nondecreasing now rest
  | _ :: rest => clock_nondecreasing last rest
  end.

(* ------------------------------------------------------------------ *)
(** ** Sample data *)

Definition b (s : string) : bytes := list_byte_of_string s.

(** A codec for the samples: a byte string stands for itself, the other
    objects for the bencoding of zero, of the empty list and of the empty
    dictionary. *)
Definition sample_encode (m : Message) : bytes :=
  match m with
  | PyBytes s => s
  | PyInt _ => b "i0e"
  | PyList _ => b "le"
  | PyDict _ => b "de"
  end.

Definition sample_decode (data : bytes) : DecodeError + pyobject :=
  if list_eq_dec Byte.byte_eq_dec data (b "de") then inr (PyDict [])
  else if list_eq_dec Byte.byte_eq_dec data (b "i0e") then inr (PyInt 0)
  else inl DecodeError_raised.

Definition msg_A : Message := PyBytes (b "A").
Definition msg_B : Message := PyBytes (b "B").
Definition msg_C : Message := PyBytes (b "C").
Definition peer : Address := ("203.0.113.5"%string, 6881).
Definition peer_port0 : Address := ("203.0.113.5"%string, 0).
Definition udp_socket : DatagramTransport := SocketTransport 3.

(** A connected transport whose loop is about to resume with [msg_C],
    queued at time 0, as its only entry. *)
Definition holding_C : Transport :=
  mkTransport udp_socket true true [mkEntry 0 msg_C peer]
    (AwaitingWait Finished Finished) [] [] None.

(** An unconnected transport with [msg_A] queued: the wait on
    [_queue_nonempty] is over, the wait on [_write_allowed] is parked. *)
Definition waiting_for_socket : Transport :=
  mkTransport BaseDatagramTransport false true [mkEntry 0 msg_A peer]
    (AwaitingWait Parked Finished) [] [] None.

(** A connected transport with [msg_A] queued whose loop is about to
    resume. *)
Definition holding_A : Transport :=
  mkTransport udp_socket true true [mkEntry 0 msg_A peer]
    (AwaitingWait Finished Finished) [] [] None.

(** A connected transport with an empty deque whose loop is about to
    resume. *)
Definition ready_and_idle : Transport :=
  mkTransport udp_socket true true []
    (AwaitingWait Finished Finished) [] [] None.

(** A transport that was told to resume writing before any socket was
    bound, with [msg_A] queued and its loop about to resume. *)
Definition unbound_ready : Transport :=
  mkTransport BaseDatagramTransport true true [mkEntry 0 msg_A peer]
    (AwaitingWait Finished Finished) [] [] None.

(** A connected transport right after [send_message(msg_A, peer)]. *)
Definition connected_with_A : Transport :=
  mkTransport udp_socket true true [mkEntry 0 msg_A peer]
    (AwaitingWait Created Created) [] [] None.

(** A connected transport with three entries queued at times 0, 1 and 2,
    at the start of an iteration. *)
Definition three_queued : Transport :=
  mkTransport udp_socket true true
    [mkEntry 0 msg_A peer; mkEntry 1 msg_B peer; mkEntry 2 msg_C peer]
    (AwaitingWait Created Created) [] [] None.

(** A handler that fails. *)
Definition on_message_raising (message : Message) (address : Address)
    : outcome :=
  Raises (OSError 111).

(* ------------------------------------------------------------------ *)
(** ** The deque *)

Lemma pop_append {A : Type} (d : Deque.t A) (x : A) :
  Deque.pop (Deque.append d x) = Some (x, d).
Proof.
  unfold Deque.append.
  induction d as [|y d IH]; simpl.
  - reflexivity.
  - rewrite IH. reflexivity.
Qed.

Lemma pop_some {A : Type} (d r : Deque.t A) (x : A) :
  Deque.pop d = Some (x, r) -> d = r ++ [x].
Proof.
  revert r x.
  induction d as [|y d IH]; simpl; intros r x H.
  - discriminate.
  - destruct (Deque.pop d) as [[z r']|] eqn:E.
    + injection H as <- <-. simpl. f_equal. now apply IH.
    + injection H as <- <-. destruct d as [|z d]; simpl in *.
      * reflexivity.
      * destruct (Deque.pop d) as [[? ?]|]; discriminate.
Qed.

Lemma pop_none {A : Type} (d : Deque.t A) :
  Deque.pop d = None <-> d = [].
Proof.
  split.
  - destruct d as [|y d]; simpl; [reflexivity|].
    destruct (Deque.pop d) as [[? ?]|]; discriminate.
  - intros ->. reflexivity.
Qed.

(* ------------------------------------------------------------------ *)
(** ** Truncation and staleness *)

Lemma int_of_float_nonneg (x : Q) :
  (0 <= x)%Q -> int_of_float x = Qfloor x.
Proof.
  destruct x as [n d]. unfold Qle, int_of_float, Qfloor. simpl. intros H.
  apply Z.quot_div_nonneg; lia.
Qed.

Lemma int_of_float_nonpos (x : Q) :
  (x <= 0)%Q -> int_of_float x = Qceiling x.
Proof.
  destruct x as [n d]. unfold Qle, int_of_float, Qceiling, Qfloor. simpl.
  intros H.
  rewrite <- (Z.opp_involutive n) at 1.
  rewrite Z.quot_opp_l by lia.
  f_equal. apply Z.quot_div_nonneg; lia.
Qed.

(** For a clock that never reads below zero, [int] rounds down. *)
Lemma int_of_float_floor (x : Q) :
  (0 <= x)%Q ->
  (inject_Z (int_of_float x) <= x /\ x < inject_Z (int_of_float x) + 1)%Q.
Proof.
  intros H. rewrite (int_of_float_nonneg x H). split.
  - apply Qfloor_le.
  - pose proof (Qlt_floor x) as L.
    rewrite inject_Z_plus in L. exact L.
Qed.

(** In all cases, [int] moves a reading by less than one unit. *)
Lemma int_of_float_within_one (x : Q) :
  (x - 1 < inject_Z (int_of_float x) /\ inject_Z (int_of_float x) < x + 1)%Q.
Proof.
  destruct (Qlt_le_dec x 0) as [N|P].
  - rewrite (int_of_float_nonpos x) by (apply Qlt_le_weak; exact N).
    pose proof (Qle_ceiling x) as L.
    pose proof (Qceiling_lt x) as U.
    unfold Z.sub in U. rewrite inject_Z_plus in U.
    replace (inject_Z (- (1))) with (-1 # 1)%Q in U by reflexivity.
    split; lra.
  - destruct (int_of_float_floor x P) as [L U]. split; lra.
Qed.

Lemma stale_iff (now : Q) (e : MessageQueueEntry) :
  stale now e = true <-> (STALE_AFTER < age now e)%Q.
Proof.
  unfold stale. rewrite negb_true_iff.
  split.
  - intros H. apply Qnot_le_lt. intros L.
    apply Qle_bool_iff in L. congruence.
  - intros H. destruct (Qle_bool (age now e) STALE_AFTER) eqn:E; [|reflexivity].
    apply Qle_bool_iff in E. exfalso. revert E. apply Qlt_not_le. exact H.
Qed.

Lemma fresh_iff (now : Q) (e : MessageQueueEntry) :
  stale now e = false <-> (age now e <= STALE_AFTER)%Q.
Proof.
  unfold stale. rewrite negb_false_iff. apply Qle_bool_iff.
Qed.

(* ------------------------------------------------------------------ *)
(** ** send_message *)

Section SendMessage.

Variable encode : Message -> bytes.

(** C7.  [send_message] is defined on every message, address and transport
    state and runs in one turn (it has no suspension point): it appends an
    entry stamped with the clock reading, in whole units, at the right end of
    the deque, leaves [_queue_nonempty] set (waking a parked waiter when the
    flag was cleared, changing nothing else when it was set), and touches no
    other attribute; no property of the message or of the address is asked
    for.  While the process runs, the call is always possible. *)
Theorem send_message_enqueues
    (now : Q) (m : Message) (a : Address) (self : Transport) :
  let self' := send_message now m a self in
  _message_queue self' =
    _message_queue self ++ [mkEntry (int_of_float now) m a]
  /\ (now - 1 < inject_Z (int_of_float now) < now + 1)%Q
  /\ _queue_nonempty self' = true
  /\ _messenger_task self' =
       (if _queue_nonempty self then _messenger_task self
        else match _messenger_task self with
             | AwaitingWait w Parked => AwaitingWait w Finished
             | c => c
             end)
  /\ _write_allowed self' = _write_allowed self
  /\ _datagram_transport self' = _datagram_transport self
  /\ sent self' = sent self
  /\ logged self' = logged self
  /\ exited self' = exited self
  /\ (exited self = None ->
      step encode (Call_send_message now m a) self = Some self').
Proof.
  pose proof (int_of_float_within_one now) as W.
  destruct self as [t wa qn mq task s l ex].
  unfold send_message, step. simpl.
  destruct qn; simpl.
  - repeat split; try reflexivity; try apply W.
    intros ->. reflexivity.
  - repeat split; try reflexivity; try apply W.
    + destruct task as [w [ | | ]| |]; reflexivity.
    + intros ->. reflexivity.
Qed.

End SendMessage.

Lemma send_message_enqueues_witness :
  exited init = None
  /\ step sample_encode (Call_send_message (7 # 2) msg_A peer) init
     = Some (send_message (7 # 2) msg_A peer init).
Proof.
  split.
  - reflexivity.
  - apply (send_message_enqueues sample_encode (7 # 2) msg_A peer init).
    reflexivity.
Defined.

(* ------------------------------------------------------------------ *)
(** ** datagram_received *)

Section DatagramReceived.

Variable decode : bytes -> DecodeError + pyobject.
Variable on_message : Message -> Address -> outcome.

(** C5.  A datagram whose source port is 0 makes [datagram_received] return
    with no call made at all: neither [codec.decode] nor [on_message]. *)
Theorem datagram_received_port_zero (data : bytes) (host : string) :
  datagram_received decode on_message data (host, 0) = ([], Returns).
Proof.
  unfold datagram_received. simpl. reflexivity.
Qed.

(** C6, as amended.  For every datagram: when the payload fails to decode,
    or decodes to an object that is not a [dict], [on_message] is not called
    and [datagram_received] returns normally.  When the payload decodes to a
    [dict] and the source port is not 0, the decoded message and the source
    address are handed to [on_message] (whose outcome is that of the call). *)
Theorem datagram_received_dispatch (data : bytes) (addr : Address) :
  let r := datagram_received decode on_message data addr in
  (forall message,
      decode data = inl DecodeError_raised
      \/ (decode data = inr message /\ isinstance_dict message = false) ->
      existsb is_on_message (fst r) = false /\ snd r = Returns)
  /\ (forall message,
         snd addr <> 0 ->
         decode data = inr message ->
         isinstance_dict message = true ->
         r = ([Called_decode data; Called_on_message message addr],
              on_message message addr)).
Proof.
  unfold datagram_received. split.
  - intros message H.
    destruct (snd addr =? 0); [split; reflexivity|].
    destruct H as [-> | [-> ->]]; split; reflexivity.
  - intros message P D I.
    apply Z.eqb_neq in P. rewrite P, D, I. reflexivity.
Qed.

End DatagramReceived.

Lemma datagram_received_dispatch_witness :
  (sample_decode (b "x") = inl DecodeError_raised
   /\ snd (datagram_received sample_decode on_message_pass (b "x") peer)
      = Returns)
  /\ (snd peer <> 0
      /\ sample_decode (b "de") = inr (PyDict [])
      /\ isinstance_dict (PyDict []) = true
      /\ datagram_received sample_decode on_message_pass (b "de") peer
         = ([Called_decode (b "de"); Called_on_message (PyDict []) peer],
            Returns)).
Proof.
  pose proof
    (datagram_received_dispatch sample_decode on_message_pass (b "x") peer)
    as [Hfail _].
  pose proof
    (datagram_received_dispatch sample_decode on_message_pass (b "de") peer)
    as [_ Hok].
  split.
  - split; [reflexivity|].
    apply (Hfail (PyInt 0)). left. reflexivity.
  - assert (P : snd peer <> 0) by (simpl; lia).
    split; [exact P|]. split; [reflexivity|]. split; [reflexivity|].
    apply (Hok (PyDict []) P); reflexivity.
Defined.

(** C6 as the claim has it fails at a datagram from port 0: the payload
    decodes, and to a [dict], yet the handler is not called with it. *)
Lemma datagram_received_port_zero_not_forwarded :
  sample_decode (b "de") = inr (PyDict [])
  /\ isinstance_dict (PyDict []) = true
  /\ ~ In (Called_on_message (PyDict []) peer_port0)
          (fst (datagram_received sample_decode on_message_pass
                  (b "de") peer_port0)).
Proof.
  split; [reflexivity|]. split; [reflexivity|].
  simpl. intros [].
Qed.

(* ------------------------------------------------------------------ *)
(** ** Lifecycle callbacks and the queue-activity invariant *)

Section Lifecycle.

Variable encode : Message -> bytes.

(** C8.  With or without an exception, [connection_lost] logs one record at
    CRITICAL, the highest level there is, and exits with status 1, after
    which nothing of the transport runs.  The two cases differ in the logged
    record (its text and its [exc_info]) and in nothing else. *)
Theorem connection_lost_exits (e : pyexc) (self : Transport) :
  let quiet := connection_lost None self in
  let loud := connection_lost (Some e) self in
  exited quiet = Some 1 /\ exited loud = Some 1 /\ 1 <> 0
  /\ logged quiet =
       logged self ++ [mkLog CRITICAL "Mainline DHT lost connection!" None]
  /\ logged loud =
       logged self ++
       [mkLog CRITICAL
          "Mainline DHT lost connection! (See the following log entry for the exception.)"
          (Some e)]
  /\ logged quiet <> logged loud
  /\ (forall l, levelno l <= levelno CRITICAL)
  /\ with_logged [] quiet = with_logged [] loud
  /\ (forall a, step encode a quiet = None /\ step encode a loud = None).
Proof.
  destruct self as [t wa qn mq task s l ex].
  unfold connection_lost, sys_exit, with_exited, with_logged. simpl.
  repeat split; try reflexivity.
  - lia.
  - intros H. apply app_inv_head in H. discriminate.
  - intros lv. destruct lv; simpl; lia.
Qed.

Lemma send_message_signals (now : Q) (m : Message) (a : Address)
    (self : Transport) :
  queue_signalled (send_message now m a self).
Proof.
  destruct self as [t wa qn mq task s l ex].
  unfold queue_signalled, send_message. simpl.
  destruct qn; intros _; reflexivity.
Qed.

Lemma _send_messages_keeps_signal (now : Q) (self : Transport) :
  queue_signalled self -> queue_signalled (_send_messages encode now self).
Proof.
  destruct self as [t wa qn mq task s l ex].
  unfold queue_signalled, _send_messages, sendto. simpl. intros Inv.
  destruct (Deque.pop mq) as [[entry rest]|] eqn:P.
  - apply pop_some in P. subst mq.
    assert (Q0 : qn = true) by (apply Inv; destruct rest; discriminate).
    destruct (stale now entry); [intros _; exact Q0|].
    destruct t; intros _; exact Q0.
  - apply pop_none in P. subst mq. simpl. intros H. now elim H.
Qed.

Lemma step_keeps_signal (a : action) (self self' : Transport) :
  queue_signalled self -> step encode a self = Some self' ->
  queue_signalled self'.
Proof.
  intros Inv S. unfold step in S.
  destruct (exited self) eqn:X; [discriminate|].
  destruct a as [now m ad|t|d ad|exc| | |[exc|]| | |now];
    try (injection S as <-; destruct self; exact Inv).
  - injection S as <-. apply send_message_signals.
  - destruct (_messenger_task self) as [[ | | ] q| |] eqn:T; try discriminate.
    injection S as <-. destruct self; exact Inv.
  - destruct (_messenger_task self) as [w [ | | ]| |] eqn:T; try discriminate.
    injection S as <-. destruct self; exact Inv.
  - destruct (wait_returned self); [|discriminate].
    injection S as <-. now apply _send_messages_keeps_signal.
Qed.

(** C9.  The invariant "a non-empty deque implies [_queue_nonempty] set"
    holds of a new transport and is kept by every turn of the event loop:
    [send_message], each step of the drain coroutine and of its two waits,
    and each of the protocol callbacks.  The flag can be set over an empty
    deque: that state is reached after one message was queued and sent. *)
Theorem queue_signalled_invariant :
  queue_signalled init
  /\ (forall a self self',
         queue_signalled self -> step encode a self = Some self' ->
         queue_signalled self')
  /\ (exists schedule self,
         run encode schedule init = Some self
         /\ _message_queue self = []
         /\ _queue_nonempty self = true).
Proof.
  split; [|split].
  - intros H. now elim H.
  - apply step_keeps_signal.
  - exists ([Call_connection_made udp_socket; Call_send_message 0 msg_A peer]
            ++ iteration 1).
    eexists. split; [reflexivity|]. split; reflexivity.
Qed.

End Lifecycle.

Lemma queue_signalled_invariant_witness :
  queue_signalled (send_message 0 msg_A peer init)
  /\ queue_signalled (_send_messages sample_encode 1 ready_and_idle).
Proof.
  destruct (queue_signalled_invariant sample_encode) as (I0 & Keep & _).
  split.
  - apply (Keep (Call_send_message 0 msg_A peer) init); [exact I0|reflexivity].
  - apply (Keep (Resume_send_messages 1) ready_and_idle); [|reflexivity].
    intros H. now elim H.
Defined.

(* ------------------------------------------------------------------ *)
(** ** The drain coroutine *)

Section Drain.

Variable encode : Message -> bytes.

(** Once [_send_messages] has returned, no turn of the loop belongs to it
    any more and nothing is handed to [sendto]. *)
Lemma returned_step (a : action) (self self' : Transport) :
  _messenger_task self = CoroutineReturned ->
  step encode a self = Some self' ->
  _messenger_task self' = CoroutineReturned /\ sent self' = sent self.
Proof.
  intros T S. unfold step in S.
  destruct (exited self) eqn:X; [discriminate|].
  destruct a as [now m ad|t|d ad|exc| | |[exc|]| | |now];
    try (injection S as <-; destruct self; simpl in *; subst;
         split; reflexivity).
  - injection S as <-. destruct self as [t wa [|] mq task s l ex];
      simpl in *; subst; split; reflexivity.
  - rewrite T in S. discriminate.
  - rewrite T in S. discriminate.
  - unfold wait_returned in S. rewrite T in S. discriminate.
Qed.

Lemma returned_forever (schedule : list action) (self self' : Transport) :
  _messenger_task self = CoroutineReturned ->
  run encode schedule self = Some self' ->
  _messenger_task self' = CoroutineReturned /\ sent self' = sent self.
Proof.
  revert self. induction schedule as [|a rest IH]; simpl; intros self T R.
  - injection R as <-. split; [exact T|reflexivity].
  - destruct (step encode a self) as [mid|] eqn:S; [|discriminate].
    destruct (returned_step a self mid T S) as [T' E'].
    destruct (IH mid T' R) as [T'' E'']. split; congruence.
Qed.

(** C4.  When the coroutine resumes and the entry it pops is older than 60
    (line 111), the entry leaves the deque, nothing is handed to [sendto],
    and the coroutine returns.  From then on, whatever the schedule, the
    datagrams sent stay what they were at the pop, and neither the two waits
    nor the body of the loop can run again. *)
Theorem stale_entry_ends_the_loop
    (now : Q) (self : Transport) (entry : MessageQueueEntry)
    (rest : Deque.t MessageQueueEntry) :
  exited self = None ->
  wait_returned self = true ->
  Deque.pop (_message_queue self) = Some (entry, rest) ->
  (STALE_AFTER < age now entry)%Q ->
  exists self',
    step encode (Resume_send_messages now) self = Some self'
    /\ _message_queue self' = rest
    /\ sent self' = sent self
    /\ _messenger_task self' = CoroutineReturned
    /\ forall schedule self'',
         run encode schedule self' = Some self'' ->
         sent self'' = sent self
         /\ _messenger_task self'' = CoroutineReturned
         /\ step encode Run_write_allowed_wait self'' = None
         /\ step encode Run_queue_nonempty_wait self'' = None
         /\ forall now', step encode (Resume_send_messages now') self'' = None.
Proof.
  intros X W P Old. apply stale_iff in Old.
  exists (with_messenger_task CoroutineReturned (with_message_queue rest self)).
  assert (S : step encode (Resume_send_messages now) self
              = Some (with_messenger_task CoroutineReturned
                        (with_message_queue rest self))).
  { unfold step. rewrite X, W. unfold _send_messages. rewrite P, Old.
    reflexivity. }
  split; [exact S|]. split; [reflexivity|]. split; [reflexivity|].
  split; [reflexivity|].
  intros schedule self'' R.
  apply returned_forever in R; [|reflexivity].
  destruct R as [T E]. split; [exact E|]. split; [exact T|].
  unfold step, wait_returned. rewrite T.
  destruct (exited self''); repeat split; reflexivity.
Qed.

(** Which turns let [asyncio.wait] return, and what a finished wait says. *)
Lemma wait_returned_iff (self : Transport) :
  wait_returned self = true <->
  _messenger_task self = AwaitingWait Finished Finished.
Proof.
  unfold wait_returned, asyncio_wait_done.
  destruct (_messenger_task self) as [[ | | ] [ | | ]| |]; simpl;
    split; intros H; try reflexivity; discriminate.
Qed.

Lemma resume_enabled_iff (now : Q) (self : Transport) :
  step encode (Resume_send_messages now) self <> None <->
  exited self = None
  /\ _messenger_task self = AwaitingWait Finished Finished.
Proof.
  unfold step. rewrite <- wait_returned_iff.
  destruct (exited self); destruct (wait_returned self); split;
    try (intros H; now elim H); try (intros [? ?]; discriminate);
    try (intros _; split; reflexivity); intros _; discriminate.
Qed.

(** Closes the case of a callback in the lemmas on one turn: the new state
    is known, its coroutine is read off, the flags decide the rest. *)
Ltac callback S T' :=
  injection S as <-; simpl in *; injection T' as <- <-;
  split; try congruence; intros; reflexivity.

(** A wait that was not over and is over after a turn: the turn leaves the
    event set. *)
Lemma wait_finishes_on_set
    (a : action) (self self' : Transport) (w q w' q' : wait_task) :
  _messenger_task self = AwaitingWait w q ->
  step encode a self = Some self' ->
  _messenger_task self' = AwaitingWait w' q' ->
  (w <> Finished -> w' = Finished -> _write_allowed self' = true)
  /\ (q <> Finished -> q' = Finished -> _queue_nonempty self' = true).
Proof.
  intros T S T'. unfold step in S.
  destruct self as [t wa qn mq task s l ex]. simpl in *. subst task.
  destruct ex; [discriminate|].
  destruct a as [tm m ad|t0|d ad|exc| | |[exc|]| | |tm]; simpl in S;
    try (callback S T'; fail).
  - injection S as <-. unfold send_message in T'. simpl in T'.
    destruct qn; simpl in *; injection T' as <- <-;
      split; try congruence; destruct q; simpl; congruence.
  - destruct w; try discriminate. injection S as <-. simpl in *.
    injection T' as <- <-. split; [|congruence].
    destruct wa; simpl; intros; congruence.
  - destruct q; try discriminate. injection S as <-. simpl in *.
    injection T' as <- <-. split; [congruence|].
    destruct qn; simpl; intros; congruence.
  - unfold wait_returned in S. simpl in S.
    destruct w; simpl in S; try discriminate.
    destruct q; simpl in S; try discriminate.
    injection S as <-. unfold _send_messages, sendto in T'. simpl in T'.
    destruct (Deque.pop mq) as [[entry rest]|]; simpl in T'.
    + destruct (stale tm entry); simpl in T'; [discriminate|].
      destruct t; simpl in T'; [discriminate|].
      injection T' as <- <-. split; intros; discriminate.
    + injection T' as <- <-. split; intros; discriminate.
Qed.

(** Within an iteration the coroutine stays suspended at line 104. *)
Lemma still_awaiting
    (a : action) (self self' : Transport) (w q : wait_task) :
  is_resume a = false ->
  _messenger_task self = AwaitingWait w q ->
  step encode a self = Some self' ->
  exists w' q', _messenger_task self' = AwaitingWait w' q'.
Proof.
  intros NR T S. unfold step in S.
  destruct self as [t wa qn mq task s l ex]. simpl in *. subst task.
  destruct ex; [discriminate|].
  destruct a as [tm m ad|t0|d ad|exc| | |[exc|]| | |tm]; simpl in S;
    try discriminate;
    try (injection S as <-; simpl; eexists; eexists; reflexivity).
  - injection S as <-. unfold send_message. simpl.
    destruct qn; simpl; eexists; eexists; reflexivity.
  - destruct w; try discriminate. injection S as <-.
    simpl. eexists; eexists; reflexivity.
  - destruct q; try discriminate. injection S as <-.
    simpl. eexists; eexists; reflexivity.
Qed.

Lemma visited_head (schedule : list action) (self : Transport) :
  In self (visited encode schedule self).
Proof.
  destruct schedule; simpl; left; reflexivity.
Qed.

(** Over the turns of one iteration, a wait that ends has seen its event
    set: some state gone through has the flag up. *)
Lemma finished_waits_saw_flags (schedule : list action) :
  forall (self self' : Transport) (w q w' q' : wait_task),
    forallb (fun a => negb (is_resume a)) schedule = true ->
    _messenger_task self = AwaitingWait w q ->
    run encode schedule self = Some self' ->
    _messenger_task self' = AwaitingWait w' q' ->
    (w <> Finished -> w' = Finished ->
     exists s, In s (visited encode schedule self) /\ _write_allowed s = true)
    /\ (q <> Finished -> q' = Finished ->
        exists s,
          In s (visited encode schedule self) /\ _queue_nonempty s = true).
Proof.
  induction schedule as [|a rest IH]; intros self self' w q w' q' NR T R T'.
  - simpl in R. injection R as <-. rewrite T in T'. injection T' as <- <-.
    split; intros N F; now elim N.
  - simpl in NR. apply andb_true_iff in NR. destruct NR as [NRa NRrest].
    apply negb_true_iff in NRa.
    simpl in R. destruct (step encode a self) as [mid|] eqn:S; [|discriminate].
    destruct (still_awaiting a self mid w q NRa T S) as (w1 & q1 & T1).
    destruct (wait_finishes_on_set a self mid w q w1 q1 T S T1) as [Hw Hq].
    destruct (IH mid self' w1 q1 w' q' NRrest T1 R T') as [IHw IHq].
    simpl. rewrite S. split.
    + intros N F.
      destruct w1 eqn:E1;
        try (destruct IHw as (s0 & I & V); [discriminate|exact F|];
             exists s0; split; [right; exact I|exact V]).
      exists mid. split; [right; apply visited_head|].
      apply Hw; [exact N|reflexivity].
    + intros N F.
      destruct q1 eqn:E1;
        try (destruct IHq as (s0 & I & V); [discriminate|exact F|];
             exists s0; split; [right; exact I|exact V]).
      exists mid. split; [right; apply visited_head|].
      apply Hq; [exact N|reflexivity].
Qed.

(** C2, as amended.  The body of the loop runs (the coroutine is resumed
    from line 104) exactly when both waits are over, the one on
    [_write_allowed] and the one on [_queue_nonempty].  And when it is
    resumed in a state reached from the start of an iteration, each of the
    two events was set at some point of that iteration: the loop has waited
    for both signals, not for the first of them. *)
Theorem drain_loop_waits_for_both (now : Q) (self : Transport) :
  (step encode (Resume_send_messages now) self <> None <->
     exited self = None
     /\ _messenger_task self = AwaitingWait Finished Finished)
  /\ (forall schedule start,
         _messenger_task start = AwaitingWait Created Created ->
         forallb (fun a => negb (is_resume a)) schedule = true ->
         run encode schedule start = Some self ->
         step encode (Resume_send_messages now) self <> None ->
         (exists s,
             In s (visited encode schedule start) /\ _write_allowed s = true)
         /\ (exists s,
                In s (visited encode schedule start)
                /\ _queue_nonempty s = true)).
Proof.
  split; [apply resume_enabled_iff|].
  intros schedule start T0 NR R E.
  apply resume_enabled_iff in E. destruct E as [_ T].
  destruct (finished_waits_saw_flags schedule start self
              Created Created Finished Finished NR T0 R T) as [Hw Hq].
  split; [apply Hw|apply Hq]; try discriminate; reflexivity.
Qed.

End Drain.

Lemma stale_entry_ends_the_loop_witness :
  exists self',
    step sample_encode (Resume_send_messages 61) holding_C = Some self'
    /\ _message_queue self' = []
    /\ sent self' = []
    /\ _messenger_task self' = CoroutineReturned
    /\ forall schedule self'',
         run sample_encode schedule self' = Some self'' ->
         sent self'' = []
         /\ _messenger_task self'' = CoroutineReturned
         /\ step sample_encode Run_write_allowed_wait self'' = None
         /\ step sample_encode Run_queue_nonempty_wait self'' = None
         /\ forall now',
              step sample_encode (Resume_send_messages now') self'' = None.
Proof.
  apply (stale_entry_ends_the_loop sample_encode 61 holding_C
           (mkEntry 0 msg_C peer) []).
  - reflexivity.
  - reflexivity.
  - reflexivity.
  - reflexivity.
Defined.

Lemma drain_loop_waits_for_both_witness :
  step sample_encode (Resume_send_messages 1) holding_A <> None
  /\ run sample_encode
       [Call_connection_made udp_socket; Call_send_message 0 msg_A peer;
        Run_write_allowed_wait; Run_queue_nonempty_wait] init
     = Some holding_A
  /\ (exists s,
         In s (visited sample_encode
                 [Call_connection_made udp_socket;
                  Call_send_message 0 msg_A peer;
                  Run_write_allowed_wait; Run_queue_nonempty_wait] init)
         /\ _write_allowed s = true)
  /\ (exists s,
         In s (visited sample_encode
                 [Call_connection_made udp_socket;
                  Call_send_message 0 msg_A peer;
                  Run_write_allowed_wait; Run_queue_nonempty_wait] init)
         /\ _queue_nonempty s = true).
Proof.
  destruct (drain_loop_waits_for_both sample_encode 1 holding_A)
    as [Resumes Seen].
  assert (E : step sample_encode (Resume_send_messages 1) holding_A <> None)
    by (apply Resumes; split; reflexivity).
  split; [exact E|]. split; [reflexivity|].
  apply (Seen
           [Call_connection_made udp_socket; Call_send_message 0 msg_A peer;
            Run_write_allowed_wait; Run_queue_nonempty_wait] init).
  - reflexivity.
  - reflexivity.
  - reflexivity.
  - exact E.
Defined.

(** C2 as the claim has it fails on a transport that has a message queued
    and no socket yet: [_queue_nonempty] is set and its wait is over, a
    wait for the first of the two would have returned, yet the coroutine
    stays suspended. *)
Lemma drain_loop_not_woken_by_one_signal :
  run sample_encode
    [Call_send_message 0 msg_A peer; Run_write_allowed_wait;
     Run_queue_nonempty_wait] init = Some waiting_for_socket
  /\ _queue_nonempty waiting_for_socket = true
  /\ _messenger_task waiting_for_socket = AwaitingWait Parked Finished
  /\ asyncio_wait_done FIRST_COMPLETED [Parked; Finished] = true
  /\ step sample_encode (Resume_send_messages 1) waiting_for_socket = None.
Proof.
  repeat split; reflexivity.
Qed.

(* ------------------------------------------------------------------ *)
(** ** The time stamp of an entry *)



(* ------------------------------------------------------------------ *)
(** ** The order of sending *)

Section Order.

Variable encode : Message -> bytes.

Lemma run_app (s1 s2 : list action) (self : Transport) :
  run encode (s1 ++ s2) self =
  match run encode s1 self with
  | Some mid => run encode s2 mid
  | None => None
  end.
Proof.
  revert self. induction s1 as [|a s1 IH]; simpl; intros self.
  - reflexivity.
  - destruct (step encode a self); [apply IH|reflexivity].
Qed.

(** One iteration on a connected, writable transport whose newest entry is
    fresh: that entry, the one at the right end, is the one sent. *)
Lemma iteration_sends_newest
    (now : Q) (fd : Z) (rest : Deque.t MessageQueueEntry)
    (entry : MessageQueueEntry) (out : list (bytes * Address))
    (l : list LogRecord) :
  stale now entry = false ->
  run encode (iteration now)
    (mkTransport (SocketTransport fd) true true (rest ++ [entry])
       (AwaitingWait Created Created) out l None)
  = Some (mkTransport (SocketTransport fd) true true rest
            (AwaitingWait Created Created)
            (out ++ [datagram_of encode entry]) l None).
Proof.
  intros F. unfold iteration, run, step. simpl.
  unfold _send_messages. simpl.
  change (rest ++ [entry]) with (Deque.append rest entry).
  rewrite pop_append. rewrite F. reflexivity.
Qed.

(** Draining a backlog: as many iterations as there are fresh entries send
    them from the newest to the oldest. *)
Lemma drain_sends_newest_first
    (now : Q) (fd : Z) (backlog : list MessageQueueEntry)
    (out : list (bytes * Address)) (l : list LogRecord) :
  (forall e, In e backlog -> stale now e = false) ->
  run encode (List.concat (repeat (iteration now) (List.length backlog)))
    (mkTransport (SocketTransport fd) true true backlog
       (AwaitingWait Created Created) out l None)
  = Some (mkTransport (SocketTransport fd) true true []
            (AwaitingWait Created Created)
            (out ++ map (datagram_of encode) (rev backlog)) l None).
Proof.
  revert out.
  induction backlog as [|entry rest IH] using rev_ind; intros out Fresh.
  - simpl. rewrite app_nil_r. reflexivity.
  - rewrite length_app, Nat.add_comm. cbn [Nat.add List.length repeat List.concat].
    rewrite run_app, iteration_sends_newest
      by (apply Fresh, in_or_app; right; left; reflexivity).
    rewrite IH by (intros e I; apply Fresh, in_or_app; left; exact I).
    rewrite rev_app_distr. simpl. rewrite <- app_assoc. reflexivity.
Qed.

(** C1, the code at two queued messages.  After [send_message(A)] and
    [send_message(B)] the deque holds A then B; [pop()] takes B, where
    [popleft()] would take A; two iterations of the loop hand B to the socket
    first and A second. *)
Theorem two_messages_sent_newest_first :
  option_map _message_queue
    (run encode
       [Call_connection_made udp_socket; Call_send_message 0 msg_A peer;
        Call_send_message 0 msg_B peer] init)
    = Some [mkEntry 0 msg_A peer; mkEntry 0 msg_B peer]
  /\ Deque.pop [mkEntry 0 msg_A peer; mkEntry 0 msg_B peer]
     = Some (mkEntry 0 msg_B peer, [mkEntry 0 msg_A peer])
  /\ Deque.popleft [mkEntry 0 msg_A peer; mkEntry 0 msg_B peer]
     = Some (mkEntry 0 msg_A peer, [mkEntry 0 msg_B peer])
  /\ option_map sent
       (run encode
          ([Call_connection_made udp_socket; Call_send_message 0 msg_A peer;
            Call_send_message 0 msg_B peer] ++ iteration 5 ++ iteration 5)
          init)
     = Some [(encode msg_B, peer); (encode msg_A, peer)].
Proof.
  repeat split; reflexivity.
Qed.

(** C3, the code at a pause.  The socket is connected and C is sent;
    [pause_writing] is called from inside that [sendto], before the loop is
    back at line 104; A, then B, are queued during the pause and the two
    waits take their first step.  Up to there nothing but C has been sent
    and the loop cannot be resumed.  After [resume_writing] the loop hands B
    to the socket before A. *)
Theorem paused_backlog_sent_newest_first :
  option_map
    (fun self =>
       (_write_allowed self, _message_queue self, sent self,
        step encode (Resume_send_messages 3) self))
    (run encode
       ([Call_connection_made udp_socket; Call_send_message 0 msg_C peer]
        ++ iteration 1
        ++ [Call_pause_writing; Call_send_message 2 msg_A peer;
            Call_send_message 2 msg_B peer; Run_write_allowed_wait;
            Run_queue_nonempty_wait]) init)
    = Some (false, [mkEntry 2 msg_A peer; mkEntry 2 msg_B peer],
            [(encode msg_C, peer)], None)
  /\ option_map sent
       (run encode
          ([Call_connection_made udp_socket; Call_send_message 0 msg_C peer]
           ++ iteration 1
           ++ [Call_pause_writing; Call_send_message 2 msg_A peer;
               Call_send_message 2 msg_B peer; Run_write_allowed_wait;
               Run_queue_nonempty_wait]
           ++ [Call_resume_writing; Resume_send_messages 5]
           ++ iteration 5) init)
     = Some [(encode msg_C, peer); (encode msg_B, peer); (encode msg_A, peer)].
Proof.
  split; reflexivity.
Qed.

End Order.

(* ------------------------------------------------------------------ *)
(** ** When the loop cannot run *)

Section Suspended.

Variable encode : Message -> bytes.

(** Takes a turn apart: the state field by field, then the action. *)
Ltac by_turn self a S :=
  unfold step in S;
  destruct self as [t wa qn mq task s l ex]; simpl in *; subst;
  destruct ex; [discriminate|];
  destruct a as [tm m ad|t0|d ad|exc| | |[exc|]| | |tm]; simpl in *;
  try discriminate.




Lemma gated_step
    (a : action) (self self' : Transport) (w q : wait_task) :
  _write_allowed self = false ->
  _messenger_task self = AwaitingWait w q -> w <> Finished ->
  sets_write_allowed a = false ->
  step encode a self = Some self' ->
  _write_allowed self' = false
  /\ (exists w' q', _messenger_task self' = AwaitingWait w' q'
                    /\ w' <> Finished)
  /\ sent self' = sent self
  /\ _message_queue self' = _message_queue self ++ enqueued [a].
Proof.
  intros W0 T N NG S. by_turn self a S;
    try (injection S as <-; simpl; rewrite ?app_nil_r; repeat split; trivial;
         eexists; eexists; split; [reflexivity|exact N]).
  - injection S as <-. unfold send_message. simpl.
    destruct qn; simpl; repeat split; trivial;
      eexists; eexists; split; try reflexivity; exact N.
  - destruct w; try discriminate. injection S as <-. simpl.
    rewrite app_nil_r. repeat split; trivial.
    eexists; eexists; split; [reflexivity|discriminate].
  - destruct q; try discriminate. injection S as <-. simpl.
    rewrite app_nil_r. repeat split; trivial.
    eexists; eexists; split; [reflexivity|exact N].
  - unfold wait_returned in S. simpl in S.
    destruct w, q; simpl in S; try discriminate. now elim N.
Qed.

Lemma enqueued_cons (a : action) (rest : list action) :
  enqueued (a :: rest) = enqueued [a] ++ enqueued rest.
Proof.
  destruct a; reflexivity.
Qed.

(** X2.  While [_write_allowed] is cleared and the wait on it is not over,
    nothing is handed to the socket until [resume_writing] or
    [connection_made] is called: over any schedule without these two, the
    datagrams sent stay the same, the loop cannot be resumed, and every
    message given to [send_message] is kept in the deque, in the order of the
    calls.  A new transport is in that situation. *)
Theorem closed_gate_sends_nothing
    (self : Transport) (w q : wait_task) (schedule : list action) :
  _write_allowed self = false ->
  _messenger_task self = AwaitingWait w q ->
  w <> Finished ->
  forallb (fun a => negb (sets_write_allowed a)) schedule = true ->
  forall self',
    run encode schedule self = Some self' ->
    sent self' = sent self
    /\ _message_queue self' = _message_queue self ++ enqueued schedule
    /\ _write_allowed self' = false
    /\ forall t, step encode (Resume_send_messages t) self' = None.
Proof.
  revert self w q.
  induction schedule as [|a rest IH]; intros self w q W0 T N NG self' R.
  - simpl in R. injection R as <-. simpl. rewrite app_nil_r.
    repeat split; trivial.
    intros t0. unfold step, wait_returned. rewrite T.
    destruct (exited self); [reflexivity|].
    destruct w, q; simpl; try reflexivity. now elim N.
  - simpl in NG. apply andb_true_iff in NG. destruct NG as [NGa NGrest].
    apply negb_true_iff in NGa. simpl in R.
    destruct (step encode a self) as [mid|] eqn:S; [|discriminate].
    destruct (gated_step a self mid w q W0 T N NGa S)
      as (W1 & (w1 & q1 & T1 & N1) & E1 & M1).
    destruct (IH mid w1 q1 W1 T1 N1 NGrest self' R) as (E2 & M2 & W2 & D2).
    rewrite enqueued_cons, app_assoc, <- M1.
    repeat split; trivial; congruence.
Qed.

End Suspended.

(* ------------------------------------------------------------------ *)
(** ** Where the messages go *)

Section Conservation.

Variable encode : Message -> bytes.

Lemma step_conserves (a : action) (self self' : Transport) :
  step encode a self = Some self' ->
  exists lost,
    (List.length lost + ended (_messenger_task self)
     = ended (_messenger_task self'))%nat
    /\ Permutation
         (sent self
          ++ map (datagram_of encode) (_message_queue self ++ enqueued [a]))
         (sent self'
          ++ map (datagram_of encode) (_message_queue self')
          ++ map (datagram_of encode) lost).
Proof.
  intros S. unfold step in S.
  destruct self as [t wa qn mq task s l ex]. simpl in *.
  destruct ex; [discriminate|].
  destruct a as [tm m ad|t0|d ad|exc| | |[exc|]| | |tm]; simpl in *;
    try (injection S as <-; exists []; simpl; rewrite !app_nil_r;
         split; [destruct task; reflexivity|reflexivity]).
  - injection S as <-. exists []. unfold send_message. simpl.
    destruct qn; simpl; rewrite !app_nil_r;
      (split; [destruct task; reflexivity|reflexivity]).
  - destruct task as [[ | | ] q| |]; try discriminate.
    injection S as <-. exists []. simpl. rewrite !app_nil_r.
    split; reflexivity.
  - destruct task as [w [ | | ]| |]; try discriminate.
    injection S as <-. exists []. simpl. rewrite !app_nil_r.
    split; reflexivity.
  - unfold wait_returned in S. simpl in S.
    destruct task as [[ | | ] [ | | ]| |]; simpl in S; try discriminate.
    injection S as <-. unfold _send_messages, sendto. simpl.
    destruct (Deque.pop mq) as [[entry rest]|] eqn:P.
    + apply pop_some in P. subst mq. simpl.
      destruct (stale tm entry); simpl.
      * exists [entry]. split; [reflexivity|].
        rewrite app_nil_r, map_app. reflexivity.
      * destruct t; simpl.
        -- exists [entry]. split; [reflexivity|].
           rewrite app_nil_r, map_app. reflexivity.
        -- exists []. split; [reflexivity|].
           simpl. rewrite !app_nil_r, map_app, <- app_assoc.
           apply Permutation_app_head. apply Permutation_app_comm.
    + apply pop_none in P. subst mq. exists []. split; reflexivity.
Qed.

Lemma carry_over {A : Type} (x y z d x' y' : list A) :
  Permutation (x ++ y) (x' ++ y' ++ z) ->
  Permutation (x ++ y ++ d) (x' ++ (y' ++ d) ++ z).
Proof.
  intros H.
  rewrite app_assoc, H, <- !app_assoc.
  do 2 apply Permutation_app_head. apply Permutation_app_comm.
Qed.

(** X3.  Over any schedule, from any state: the datagrams sent before, the
    entries queued before and the entries [send_message] creates during the
    schedule are, counted with multiplicity, the datagrams sent afterwards,
    the entries still queued and the entries lost, and at most one entry is
    lost, the one at which [_send_messages] ended.  So no message is handed
    to the socket twice, nothing is sent that was not queued, and nothing
    else disappears. *)
Theorem messages_are_conserved
    (schedule : list action) (self self' : Transport) :
  run encode schedule self = Some self' ->
  exists lost,
    (List.length lost <= 1)%nat
    /\ (List.length lost + ended (_messenger_task self)
        = ended (_messenger_task self'))%nat
    /\ Permutation
         (sent self
          ++ map (datagram_of encode)
               (_message_queue self ++ enqueued schedule))
         (sent self'
          ++ map (datagram_of encode) (_message_queue self')
          ++ map (datagram_of encode) lost).
Proof.
  assert (Core : forall schedule self self',
             run encode schedule self = Some self' ->
             exists lost,
               (List.length lost + ended (_messenger_task self)
                = ended (_messenger_task self'))%nat
               /\ Permutation
                    (sent self
                     ++ map (datagram_of encode)
                          (_message_queue self ++ enqueued schedule))
                    (sent self'
                     ++ map (datagram_of encode) (_message_queue self')
                     ++ map (datagram_of encode) lost)).
  { clear. intros schedule.
    induction schedule as [|a rest IH]; intros self self' R.
    - simpl in R. injection R as <-. exists []. simpl.
      rewrite !app_nil_r. split; reflexivity.
    - simpl in R. destruct (step encode a self) as [mid|] eqn:S;
        [|discriminate].
      destruct (step_conserves a self mid S) as (lost1 & L1 & P1).
      destruct (IH mid self' R) as (lost2 & L2 & P2).
      exists (lost1 ++ lost2). split.
      + rewrite length_app. lia.
      + rewrite enqueued_cons.
        rewrite map_app in P1, P2.
        rewrite !map_app.
        apply (carry_over _ _ _ (map (datagram_of encode) (enqueued rest))) in P1.
        rewrite (app_assoc (map (datagram_of encode) (_message_queue self))).
        rewrite P1.
        rewrite (app_assoc (sent mid)), P2, <- !app_assoc.
        do 2 apply Permutation_app_head. apply Permutation_app_comm. }
  intros R. destruct (Core schedule self self' R) as (lost & L & P).
  exists lost. split; [|split; assumption].
  destruct (_messenger_task self'); destruct (_messenger_task self);
    simpl in L; lia.
Qed.

(** Once [_send_messages] is over it stays over, nothing more is sent, and
    the deque takes every new entry without giving any back. *)
Lemma ended_step (a : action) (self self' : Transport) :
  ended (_messenger_task self) = 1%nat ->
  step encode a self = Some self' ->
  _messenger_task self' = _messenger_task self
  /\ sent self' = sent self
  /\ _message_queue self' = _message_queue self ++ enqueued [a].
Proof.
  intros D S. unfold step in S.
  destruct self as [t wa qn mq task s l ex]. simpl in *.
  destruct ex; [discriminate|].
  destruct task as [w q| |]; [discriminate| |];
    destruct a as [tm m ad|t0|d ad|exc| | |[exc|]| | |tm]; simpl in *;
    try discriminate;
    try (injection S as <-; simpl; rewrite ?app_nil_r;
         repeat split; reflexivity);
    injection S as <-; unfold send_message; simpl;
    destruct qn; simpl; repeat split; reflexivity.
Qed.

Lemma ended_forever (schedule : list action) :
  forall self self',
    ended (_messenger_task self) = 1%nat ->
    run encode schedule self = Some self' ->
    _messenger_task self' = _messenger_task self
    /\ sent self' = sent self
    /\ _message_queue self' = _message_queue self ++ enqueued schedule.
Proof.
  induction schedule as [|a rest IH]; intros self self' D R.
  - simpl in R. injection R as <-. simpl. rewrite app_nil_r.
    repeat split; reflexivity.
  - simpl in R. destruct (step encode a self) as [mid|] eqn:S; [|discriminate].
    destruct (ended_step a self mid D S) as (T1 & E1 & M1).
    assert (D1 : ended (_messenger_task mid) = 1%nat) by (rewrite T1; exact D).
    destruct (IH mid self' D1 R) as (T2 & E2 & M2).
    rewrite enqueued_cons, app_assoc, <- M1.
    repeat split; congruence.
Qed.

(** X4.  When the loop resumes with a fresh entry and the transport is
    still the placeholder of [__init__] (line 45), whose [sendto] raises
    [NotImplementedError], the entry is popped and lost, nothing is sent and
    the exception ends [_send_messages].  Nothing is ever sent afterwards,
    not even once [connection_made] has run, and the deque keeps every
    message that [send_message] is given from then on. *)
Theorem unbound_sendto_ends_the_loop
    (now : Q) (self : Transport) (entry : MessageQueueEntry)
    (rest : Deque.t MessageQueueEntry) :
  exited self = None ->
  wait_returned self = true ->
  Deque.pop (_message_queue self) = Some (entry, rest) ->
  (age now entry <= STALE_AFTER)%Q ->
  _datagram_transport self = BaseDatagramTransport ->
  exists dead,
    step encode (Resume_send_messages now) self = Some dead
    /\ _messenger_task dead = CoroutineRaised NotImplementedError
    /\ _message_queue dead = rest
    /\ sent dead = sent self
    /\ forall schedule self',
         run encode schedule dead = Some self' ->
         _messenger_task self' = CoroutineRaised NotImplementedError
         /\ sent self' = sent self
         /\ _message_queue self' = rest ++ enqueued schedule.
Proof.
  intros X W P Young B. apply fresh_iff in Young.
  exists (with_messenger_task (CoroutineRaised NotImplementedError)
            (with_message_queue rest self)).
  split.
  { unfold step. rewrite X, W. unfold _send_messages. rewrite P, Young.
    unfold sendto. simpl. rewrite B. reflexivity. }
  split; [reflexivity|]. split; [reflexivity|]. split; [reflexivity|].
  intros schedule self' R.
  apply ended_forever in R; [|reflexivity].
  exact R.
Qed.

(** X5.  When the loop resumes on a bound socket and pops an entry, the
    entry leaves the deque and is handed to [sendto], encoded and with its
    address, exactly when its age is at most 60 (60 itself included); the
    loop then suspends at line 104 again.  Otherwise nothing is sent and
    the coroutine returns. *)
Theorem popped_entry_sent_iff_fresh
    (now : Q) (fd : Z) (self : Transport) (entry : MessageQueueEntry)
    (rest : Deque.t MessageQueueEntry) :
  exited self = None ->
  wait_returned self = true ->
  Deque.pop (_message_queue self) = Some (entry, rest) ->
  _datagram_transport self = SocketTransport fd ->
  exists self',
    step encode (Resume_send_messages now) self = Some self'
    /\ _message_queue self' = rest
    /\ (((age now entry <= STALE_AFTER)%Q
         /\ sent self' = sent self ++ [(encode (message entry), address entry)]
         /\ _messenger_task self' = AwaitingWait Created Created)
        \/ ((STALE_AFTER < age now entry)%Q
            /\ sent self' = sent self
            /\ _messenger_task self' = CoroutineReturned)).
Proof.
  intros X W P B.
  unfold step. rewrite X, W. unfold _send_messages. rewrite P.
  destruct (stale now entry) eqn:E.
  - eexists. split; [reflexivity|]. split; [reflexivity|].
    right. apply stale_iff in E. repeat split. exact E.
  - unfold sendto. simpl. rewrite B.
    eexists. split; [reflexivity|]. split; [reflexivity|].
    left. apply fresh_iff in E. repeat split. exact E.
Qed.

End Conservation.

(* ------------------------------------------------------------------ *)
(** ** Errors reported by the socket *)

Section Errors.

Variable encode : Message -> bytes.






End Errors.

(* ------------------------------------------------------------------ *)
(** ** A backlog *)

Section Backlog.

Variable encode : Message -> bytes.

(** X7.  On a bound socket with writing allowed, as many iterations as
    there are entries in a fresh backlog hand that backlog to the socket from
    its newest entry to its oldest, and leave the entries that were queued
    before it where they are: an older entry is not sent as long as a newer
    one waits. *)
Theorem backlog_drained_newest_first
    (now : Q) (fd : Z) (older backlog : list MessageQueueEntry)
    (out : list (bytes * Address)) (l : list LogRecord) :
  (forall e, In e backlog -> stale now e = false) ->
  run encode (List.concat (repeat (iteration now) (List.length backlog)))
    (mkTransport (SocketTransport fd) true true (older ++ backlog)
       (AwaitingWait Created Created) out l None)
  = Some (mkTransport (SocketTransport fd) true true older
            (AwaitingWait Created Created)
            (out ++ map (datagram_of encode) (rev backlog)) l None).
Proof.
  revert out.
  induction backlog as [|entry rest IH] using rev_ind; intros out Fresh.
  - simpl. rewrite !app_nil_r. reflexivity.
  - rewrite length_app, Nat.add_comm. cbn [Nat.add List.length repeat List.concat].
    rewrite run_app, app_assoc, iteration_sends_newest
      by (apply Fresh, in_or_app; right; left; reflexivity).
    rewrite IH by (intros e I; apply Fresh, in_or_app; left; exact I).
    rewrite rev_app_distr. simpl. rewrite <- app_assoc. reflexivity.
Qed.

(* The time stamps. *)

Lemma int_of_float_mono (x y : Q) :
  (x <= y)%Q -> int_of_float x <= int_of_float y.
Proof.
  intros L.
  destruct (Qlt_le_dec x 0) as [Nx|Px]; destruct (Qlt_le_dec y 0) as [Ny|Py].
  - rewrite (int_of_float_nonpos x), (int_of_float_nonpos y)
      by (apply Qlt_le_weak; assumption).
    apply Qceiling_resp_le. exact L.
  - rewrite (int_of_float_nonpos x) by (apply Qlt_le_weak; assumption).
    rewrite (int_of_float_nonneg y) by assumption.
    apply Z.le_trans with 0.
    + change 0 with (Qceiling 0). apply Qceiling_resp_le.
      apply Qlt_le_weak. exact Nx.
    + change 0 with (Qfloor 0). apply Qfloor_resp_le. exact Py.
  - exfalso. lra.
  - rewrite (int_of_float_nonneg x), (int_of_float_nonneg y) by assumption.
    apply Qfloor_resp_le. exact L.
Qed.

Lemma stamps_sorted_snoc (d : Deque.t MessageQueueEntry)
    (e : MessageQueueEntry) :
  stamps_sorted d ->
  (forall e', In e' d -> queued_on e' <= queued_on e) ->
  stamps_sorted (d ++ [e]).
Proof.
  induction d as [|x d IH]; simpl; intros S B.
  - split; [intros e' []|exact I].
  - destruct S as [Sx Sd]. split.
    + intros e' H. apply in_app_or in H. destruct H as [H|[<-|[]]].
      * apply Sx. exact H.
      * apply B. left. reflexivity.
    + apply IH; [exact Sd|]. intros e' H. apply B. right. exact H.
Qed.

Lemma stamps_sorted_prefix (d : Deque.t MessageQueueEntry)
    (e : MessageQueueEntry) :
  stamps_sorted (d ++ [e]) ->
  stamps_sorted d /\ forall e', In e' d -> queued_on e' <= queued_on e.
Proof.
  induction d as [|x d IH]; simpl; intros S.
  - split; [exact I|intros e' []].
  - destruct S as [Sx Sd]. destruct (IH Sd) as [Sd' B]. split.
    + split; [|exact Sd'].
      intros e' H. apply Sx. apply in_or_app. left. exact H.
    + intros e' [<-|H].
      * apply Sx. apply in_or_app. right. left. reflexivity.
      * apply B. exact H.
Qed.

Lemma stamps_step (a : action) (last : Q) (self self' : Transport) :
  stamps_sorted (_message_queue self) ->
  (forall e, In e (_message_queue self) -> queued_on e <= int_of_float last) ->
  clock_nondecreasing last [a] ->
  step encode a self = Some self' ->
  exists last',
    stamps_sorted (_message_queue self')
    /\ (forall e, In e (_message_queue self') ->
                  queued_on e <= int_of_float last')
    /\ forall rest, clock_nondecreasing last (a :: rest) ->
                    clock_nondecreasing last' rest.
Proof.
  intros Srt Bnd Clk S. unfold step in S.
  destruct self as [t wa qn mq task s l ex]. simpl in *.
  destruct ex; [discriminate|].
  destruct a as [tm m ad|t0|d ad|exc| | |[exc|]| | |tm]; simpl in *;
    try (injection S as <-; exists last; simpl;
         split; [exact Srt|split; [exact Bnd|intros rest C; exact C]]).
  - destruct Clk as [Le _]. apply int_of_float_mono in Le.
    injection S as <-. exists tm.
    assert (Q' : _message_queue
                   (send_message tm m ad
                      (mkTransport t wa qn mq task s l None))
                 = mq ++ [mkEntry (int_of_float tm) m ad])
      by (unfold send_message; simpl; destruct qn; reflexivity).
    rewrite Q'. split; [|split].
    + apply stamps_sorted_snoc; [exact Srt|].
      intros e' H. simpl. apply Z.le_trans with (int_of_float last);
        [apply Bnd; exact H|exact Le].
    + intros e H. apply in_app_or in H. destruct H as [H|[<-|[]]].
      * apply Z.le_trans with (int_of_float last); [apply Bnd; exact H|exact Le].
      * simpl. lia.
    + intros rest [_ C]. exact C.
  - destruct task as [[ | | ] q| |]; try discriminate.
    injection S as <-. exists last. simpl.
    split; [exact Srt|split; [exact Bnd|intros rest C; exact C]].
  - destruct task as [w [ | | ]| |]; try discriminate.
    injection S as <-. exists last. simpl.
    split; [exact Srt|split; [exact Bnd|intros rest C; exact C]].
  - destruct (wait_returned _); [|discriminate].
    injection S as <-. exists last. unfold _send_messages, sendto. simpl.
    destruct (Deque.pop mq) as [[entry rest]|] eqn:P.
    + apply pop_some in P. subst mq.
      destruct (stamps_sorted_prefix rest entry Srt) as [Srt' _].
      assert (Bnd' : forall e, In e rest -> queued_on e <= int_of_float last)
        by (intros e H; apply Bnd, in_or_app; left; exact H).
      destruct (stale tm entry); simpl;
        [split; [exact Srt'|split; [exact Bnd'|intros r C; exact C]]|].
      destruct t; simpl;
        split; try exact Srt'; split; try exact Bnd'; intros r C; exact C.
    + simpl. split; [exact Srt|split; [exact Bnd|intros r C; exact C]].
Qed.

Lemma stamps_run (schedule : list action) :
  forall (last : Q) (self self' : Transport),
    stamps_sorted (_message_queue self) ->
    (forall e, In e (_message_queue self) ->
               queued_on e <= int_of_float last) ->
    clock_nondecreasing last schedule ->
    run encode schedule self = Some self' ->
    stamps_sorted (_message_queue self').
Proof.
  induction schedule as [|a rest IH]; intros last self self' Srt Bnd Clk R.
  - simpl in R. injection R as <-. exact Srt.
  - simpl in R. destruct (step encode a self) as [mid|] eqn:S; [|discriminate].
    assert (Clk1 : clock_nondecreasing last [a])
      by (destruct a; simpl in *; try exact I; split; [apply Clk|exact I]).
    destruct (stamps_step a last self mid Srt Bnd Clk1 S)
      as (last' & Srt' & Bnd' & Next).
    apply (IH last' mid self' Srt' Bnd' (Next rest Clk) R).
Qed.

(** X8.  With a clock that never runs backwards, the time stamps in the
    deque never decrease from the oldest entry to the newest, whatever the
    schedule since [__init__].  So when the entry the loop pops is stale,
    every entry left in the deque is stale as well. *)
Theorem stale_newest_means_all_stale
    (schedule : list action) (last now : Q) (self : Transport)
    (entry : MessageQueueEntry) (rest : Deque.t MessageQueueEntry) :
  clock_nondecreasing last schedule ->
  run encode schedule init = Some self ->
  Deque.pop (_message_queue self) = Some (entry, rest) ->
  stale now entry = true ->
  stamps_sorted (_message_queue self)
  /\ forall e, In e rest -> stale now e = true.
Proof.
  intros Clk R P Old.
  assert (Srt : stamps_sorted (_message_queue self)).
  { apply (stamps_run schedule last init self); trivial.
    - exact I.
    - intros e []. }
  split; [exact Srt|].
  apply pop_some in P. rewrite P in Srt.
  destruct (stamps_sorted_prefix rest entry Srt) as [_ B].
  intros e H. apply stale_iff. apply stale_iff in Old.
  specialize (B e H). unfold age in *.
  assert (Le : (inject_Z (queued_on e) <= inject_Z (queued_on entry))%Q)
    by (rewrite <- Zle_Qle; exact B).
  lra.
Qed.

End Backlog.

(* ------------------------------------------------------------------ *)
(** ** No lost wake-up *)

Section Progress.

Variable encode : Message -> bytes.

Lemma step_keeps_wakeups (a : action) (self self' : Transport) :
  no_lost_wakeup self -> step encode a self = Some self' ->
  no_lost_wakeup self'.
Proof.
  intros Inv S. unfold step in S.
  destruct self as [t wa qn mq task s l ex].
  unfold no_lost_wakeup in *. simpl in *.
  destruct ex; [discriminate|].
  destruct a as [tm m ad|t0|d ad|exc| | |[exc|]| | |tm]; simpl in *;
    try (injection S as <-; simpl; exact Inv).
  - injection S as <-. unfold send_message. simpl.
    destruct qn; simpl; [exact Inv|].
    destruct task as [w q| |]; trivial. destruct Inv as [Iw Iq].
    split; [exact Iw|]. destruct q; simpl; discriminate.
  - injection S as <-. simpl.
    destruct task as [w q| |]; trivial. destruct Inv as [Iw Iq].
    split; [|exact Iq]. destruct wa, w; simpl; intros H;
      try discriminate; now apply Iw.
  - injection S as <-. simpl.
    destruct task as [w q| |]; trivial. destruct Inv as [Iw Iq].
    split; [reflexivity|exact Iq].
  - injection S as <-. simpl.
    destruct task as [w q| |]; trivial. destruct Inv as [Iw Iq].
    split; [|exact Iq]. destruct wa, w; simpl; intros H;
      try discriminate; now apply Iw.
  - destruct task as [[ | | ] q| |]; try discriminate.
    injection S as <-. simpl. destruct Inv as [Iw Iq].
    split; [|exact Iq]. destruct wa; simpl; intros H;
      [discriminate|reflexivity].
  - destruct task as [w [ | | ]| |]; try discriminate.
    injection S as <-. simpl. destruct Inv as [Iw Iq].
    split; [exact Iw|]. destruct qn; simpl; intros H;
      [discriminate|reflexivity].
  - destruct (wait_returned _); [|discriminate].
    injection S as <-. unfold _send_messages, sendto. simpl.
    destruct (Deque.pop mq) as [[entry rest]|]; simpl.
    + destruct (stale tm entry); simpl; [exact I|].
      destruct t; simpl; [exact I|]. split; discriminate.
    + split; discriminate.
Qed.

Lemma reachable_invariants (schedule : list action) :
  forall self self',
    no_lost_wakeup self -> queue_signalled self ->
    run encode schedule self = Some self' ->
    no_lost_wakeup self' /\ queue_signalled self'.
Proof.
  induction schedule as [|a rest IH]; intros self self' W Q0 R.
  - simpl in R. injection R as <-. split; assumption.
  - simpl in R. destruct (step encode a self) as [mid|] eqn:S; [|discriminate].
    apply (IH mid self'); trivial.
    + exact (step_keeps_wakeups a self mid W S).
    + exact (step_keeps_signal encode a self mid Q0 S).
Qed.

(** X9.  No wake-up is lost.  In every state reached since [__init__] in
    which the process runs, [_send_messages] is not over, writing is allowed
    and the deque is not empty, the loop can go on: at most three turns (the
    first steps of the waits not yet started, then the resumption) take the
    newest entry out of the deque. *)
Theorem backlog_is_taken_up
    (schedule : list action) (now : Q) (self : Transport) :
  run encode schedule init = Some self ->
  exited self = None ->
  ended (_messenger_task self) = 0%nat ->
  _write_allowed self = true ->
  _message_queue self <> [] ->
  exists entry rest self',
    Deque.pop (_message_queue self) = Some (entry, rest)
    /\ run encode (pending_turns now self) self = Some self'
    /\ _message_queue self' = rest
    /\ (List.length (pending_turns now self) <= 3)%nat.
Proof.
  intros R X A W NE.
  assert (I0 : no_lost_wakeup init) by (split; discriminate).
  assert (Q0 : queue_signalled init) by (intros H; now elim H).
  destruct (reachable_invariants schedule init self I0 Q0 R) as [Wk Sg].
  specialize (Sg NE).
  destruct (Deque.pop (_message_queue self)) as [[entry rest]|] eqn:P;
    [|apply pop_none in P; now elim NE].
  exists entry, rest.
  destruct self as [t wa qn mq task s l ex].
  unfold no_lost_wakeup in Wk. simpl in *. subst wa qn ex.
  destruct task as [w q| |]; try discriminate. destruct Wk as [Iw Iq].
  assert (Popped : forall self0,
             _message_queue self0 = mq ->
             _message_queue (_send_messages encode now self0) = rest).
  { intros self0 E. unfold _send_messages, sendto. rewrite E, P. simpl.
    destruct (stale now entry); simpl; [reflexivity|].
    destruct (_datagram_transport self0); reflexivity. }
  destruct w; try (specialize (Iw eq_refl); discriminate);
    destruct q; try (specialize (Iq eq_refl); discriminate);
    unfold pending_turns; simpl;
    (eexists; split; [reflexivity|]; split; [reflexivity|];
     split; [apply Popped; reflexivity|lia]).
Qed.

End Progress.

(* ------------------------------------------------------------------ *)
(** ** What datagram_received calls *)

Section Inbound.

Variable decode : bytes -> DecodeError + pyobject.
Variable on_message : Message -> Address -> outcome.

(** X10.  For every datagram, [datagram_received] makes at most two calls:
    [codec.decode] exactly when the source port is not 0, and [on_message]
    exactly when, moreover, the payload decodes to a [dict].  An exception
    leaves it only when [on_message] was called and raised that exception:
    it raises none of its own and swallows none of the handler's. *)
Theorem datagram_received_calls (data : bytes) (addr : Address) :
  let r := datagram_received decode on_message data addr in
  (In (Called_decode data) (fst r) <-> snd addr <> 0)
  /\ (existsb is_on_message (fst r) = true <->
      snd addr <> 0
      /\ exists m, decode data = inr m /\ isinstance_dict m = true)
  /\ (forall e,
         snd r = Raises e <->
         snd addr <> 0
         /\ exists m, decode data = inr m /\ isinstance_dict m = true
                      /\ on_message m addr = Raises e)
  /\ (List.length (fst r) <= 2)%nat.
Proof.
  unfold datagram_received.
  destruct (snd addr =? 0) eqn:P0;
    [apply Z.eqb_eq in P0|apply Z.eqb_neq in P0].
  - simpl. split; [|split; [|split]].
    + split; [intros []|intros N; now elim N].
    + split; [discriminate|intros [N _]; now elim N].
    + intros e. split; [discriminate|intros [N _]; now elim N].
    + lia.
  - destruct (decode data) as [[]|m] eqn:D;
      [|destruct (isinstance_dict m) eqn:Im]; simpl;
      (split; [|split; [|split]]); try lia;
      try (split; [intros _; exact P0|intros _; left; reflexivity]).
    + split; [discriminate|intros [_ (m & Dm & _)]; discriminate].
    + intros e. split; [discriminate|intros [_ (m & Dm & _)]; discriminate].
    + split; [|reflexivity].
      intros _. split; [exact P0|]. exists m. split; [reflexivity|exact Im].
    + intros e. split.
      * intros H. split; [exact P0|]. exists m. repeat split; trivial.
      * intros [_ (m' & Dm & _ & Hm)]. injection Dm as <-. exact Hm.
    + split; [discriminate|].
      intros [_ (m' & Dm & Im')]. injection Dm as <-. congruence.
    + intros e. split; [discriminate|].
      intros [_ (m' & Dm & Im' & _)]. injection Dm as <-. congruence.
Qed.

End Inbound.

(* ------------------------------------------------------------------ *)
(** ** The further properties at sample schedules *)


Lemma closed_gate_sends_nothing_witness :
  exists self',
    run sample_encode
      [Call_send_message 0 msg_A peer; Call_pause_writing;
       Call_send_message 1 msg_B peer; Run_write_allowed_wait;
       Run_queue_nonempty_wait] init = Some self'
    /\ sent self' = []
    /\ _message_queue self' = [mkEntry 0 msg_A peer; mkEntry 1 msg_B peer]
    /\ _write_allowed self' = false
    /\ forall t, step sample_encode (Resume_send_messages t) self' = None.
Proof.
  eexists. split; [reflexivity|].
  apply (closed_gate_sends_nothing sample_encode init Created Created
           [Call_send_message 0 msg_A peer; Call_pause_writing;
            Call_send_message 1 msg_B peer; Run_write_allowed_wait;
            Run_queue_nonempty_wait]);
    try reflexivity.
  discriminate.
Defined.

Lemma messages_are_conserved_witness :
  exists self',
    run sample_encode
      ([Call_connection_made udp_socket; Call_send_message 0 msg_A peer;
        Call_send_message 1 msg_B peer] ++ iteration 5
       ++ [Call_send_message 6 msg_C peer]) init = Some self'
    /\ exists lost,
         (List.length lost <= 1)%nat
         /\ (List.length lost + 0 = ended (_messenger_task self'))%nat
         /\ Permutation
              (map (datagram_of sample_encode)
                 [mkEntry 0 msg_A peer; mkEntry 1 msg_B peer;
                  mkEntry 6 msg_C peer])
              (sent self'
               ++ map (datagram_of sample_encode) (_message_queue self')
               ++ map (datagram_of sample_encode) lost).
Proof.
  eexists. split; [reflexivity|].
  apply (messages_are_conserved sample_encode
           ([Call_connection_made udp_socket; Call_send_message 0 msg_A peer;
             Call_send_message 1 msg_B peer] ++ iteration 5
            ++ [Call_send_message 6 msg_C peer]) init).
  reflexivity.
Defined.

Lemma unbound_sendto_ends_the_loop_witness :
  exists dead,
    step sample_encode (Resume_send_messages 1) unbound_ready = Some dead
    /\ _messenger_task dead = CoroutineRaised NotImplementedError
    /\ _message_queue dead = []
    /\ sent dead = []
    /\ forall schedule self',
         run sample_encode schedule dead = Some self' ->
         _messenger_task self' = CoroutineRaised NotImplementedError
         /\ sent self' = []
         /\ _message_queue self' = [] ++ enqueued schedule.
Proof.
  apply (unbound_sendto_ends_the_loop sample_encode 1 unbound_ready
           (mkEntry 0 msg_A peer) []); try reflexivity.
  unfold Qle. simpl. lia.
Defined.

Lemma popped_entry_sent_iff_fresh_witness :
  exists self',
    step sample_encode (Resume_send_messages 60) holding_C = Some self'
    /\ _message_queue self' = []
    /\ (((age 60 (mkEntry 0 msg_C peer) <= STALE_AFTER)%Q
         /\ sent self' = [] ++ [(sample_encode msg_C, peer)]
         /\ _messenger_task self' = AwaitingWait Created Created)
        \/ ((STALE_AFTER < age 60 (mkEntry 0 msg_C peer))%Q
            /\ sent self' = []
            /\ _messenger_task self' = CoroutineReturned)).
Proof.
  apply (popped_entry_sent_iff_fresh sample_encode 60 3 holding_C
           (mkEntry 0 msg_C peer) []); reflexivity.
Defined.


Lemma backlog_drained_newest_first_witness :
  run sample_encode (iteration 5 ++ iteration 5) three_queued
  = Some (mkTransport udp_socket true true [mkEntry 0 msg_A peer]
            (AwaitingWait Created Created)
            [(sample_encode msg_C, peer); (sample_encode msg_B, peer)]
            [] None).
Proof.
  apply (backlog_drained_newest_first sample_encode 5 3
           [mkEntry 0 msg_A peer]
           [mkEntry 1 msg_B peer; mkEntry 2 msg_C peer] [] []).
  intros e [<-|[<-|[]]]; reflexivity.
Defined.

Lemma stale_newest_means_all_stale_witness :
  stamps_sorted (_message_queue three_queued)
  /\ forall e,
       In e [mkEntry 0 msg_A peer; mkEntry 1 msg_B peer] ->
       stale 100 e = true.
Proof.
  apply (stale_newest_means_all_stale sample_encode
           [Call_connection_made udp_socket; Call_send_message 0 msg_A peer;
            Call_send_message 1 msg_B peer; Call_send_message 2 msg_C peer]
           0 100 three_queued (mkEntry 2 msg_C peer)).
  - simpl. unfold Qle. simpl. repeat (split; try lia).
  - reflexivity.
  - reflexivity.
  - reflexivity.
Defined.

Lemma backlog_is_taken_up_witness :
  exists entry rest self',
    Deque.pop (_message_queue connected_with_A) = Some (entry, rest)
    /\ run sample_encode (pending_turns 1 connected_with_A) connected_with_A
       = Some self'
    /\ _message_queue self' = rest
    /\ (List.length (pending_turns 1 connected_with_A) <= 3)%nat.
Proof.
  apply (backlog_is_taken_up sample_encode
           [Call_connection_made udp_socket; Call_send_message 0 msg_A peer]
           1 connected_with_A); try reflexivity.
  discriminate.
Defined.

Lemma datagram_received_calls_witness :
  snd peer <> 0
  /\ snd (datagram_received sample_decode on_message_raising (b "de") peer)
     = Raises (OSError 111)
  /\ existsb is_on_message
       (fst (datagram_received sample_decode on_message_raising
               (b "de") peer)) = true.
Proof.
  assert (P : snd peer <> 0) by (simpl; lia).
  destruct (datagram_received_calls sample_decode on_message_raising
              (b "de") peer) as (_ & Handler & Raised & _).
  split; [exact P|]. split.
  - apply Raised. split; [exact P|].
    exists (PyDict []). repeat split.
  - apply Handler. split; [exact P|].
    exists (PyDict []). split; reflexivity.
Defined.
